(* Stationary initialisation of the Kalman filter: the three solvers of the
   discrete Lyapunov equation  Sigma = T Sigma T^H + Q  defined in
   kalman_filter_initialization_stationary.ipynb (direct_inverse, bilinear1,
   bilinear2), embedded over dense square matrices.

   Scalars: numpy's complex128 entries are modelled by the elements of a
   field with conjugation and modulus (C : numClosedFieldType, instantiated at
   the algebraic numbers algC for the concrete fixtures), so every operation
   is exact and rounding is outside this model: an equation that holds here
   holds within every tolerance.
   Matrices: 'M[C]_n, with  A.dot(B) = A *m B,  A.conj() = map_mx conjC A,
   A.conj().T = A ^t*,  np.eye(n) = 1%:M.
   Errors: the only exception the three functions can raise is
   numpy.linalg.LinAlgError (singular matrix) from np.linalg.inv; a raised
   exception is the result None. *)

From HB Require Import structures.
From mathcomp Require Import boot order algebra field.
From mathcomp Require Import sesquilinear spectral.

Set Implicit Arguments.
Unset Strict Implicit.
Unset Printing Implicit Defensive.

Import GRing.Theory Order.Theory Num.Theory Num.Def.
Local Open Scope ring_scope.
Local Open Scope sesquilinear_scope.

(* ========================================================================= *)
(* Part I.  The program                                                       *)
(* ========================================================================= *)

(* ------------------------------------------------------------------------- *)
(* Flat indices of an n-by-n array in C (row-major) order                     *)
(* ------------------------------------------------------------------------- *)

Section FlatIndex.

Variable n : nat.

Lemma flat_index_subproof (i j : 'I_n) : (i * n + j < n * n)%N.
Proof.
have lt_i : (i.+1 * n <= n * n)%N by rewrite leq_mul2r ltn_ord orbT.
by apply: leq_trans lt_i; rewrite mulSn addnC ltn_add2r.
Qed.

Lemma row_index_subproof (p : 'I_(n * n)) : (p %/ n < n)%N.
Proof.
case: n p => [|m] [p] //= lt_p.
by rewrite ltn_divLR.
Qed.

Lemma col_index_subproof (p : 'I_(n * n)) : (p %% n < n)%N.
Proof.
case: n p => [|m] [p] //= lt_p.
by rewrite ltn_mod.
Qed.

(* position i * n + j of the flattened array *)
Definition flat_index (i j : 'I_n) : 'I_(n * n) :=
  Ordinal (flat_index_subproof i j).

(* p // n and p % n *)
Definition row_index (p : 'I_(n * n)) : 'I_n := Ordinal (row_index_subproof p).
Definition col_index (p : 'I_(n * n)) : 'I_n := Ordinal (col_index_subproof p).

End FlatIndex.

(* ------------------------------------------------------------------------- *)
(* numpy primitives                                                           *)
(* ------------------------------------------------------------------------- *)

Section Numpy.

Variable C : numClosedFieldType.
Variable n : nat.

(* np.kron(A, B) for two n-by-n arrays:
   kron(A, B)[p, q] = A[p // n, q // n] * B[p % n, q % n] *)
Definition kron (A B : 'M[C]_n) : 'M[C]_(n * n) :=
  \matrix_(p, q) (A (row_index p) (row_index q) * B (col_index p) (col_index q)).

(* Q.reshape(Q.size, 1): numpy's default order is C (row-major), so entry p
   of the column is Q[p // n, p % n] *)
Definition reshape_col (Q : 'M[C]_n) : 'cV[C]_(n * n) :=
  \col_p Q (row_index p) (col_index p).

(* v.reshape(n, n), C order: entry [i, j] is v[i * n + j] *)
Definition reshape_sq (v : 'cV[C]_(n * n)) : 'M[C]_n :=
  \matrix_(i, j) v (flat_index i j) 0.

(* np.linalg.inv(A): raises LinAlgError when A is singular *)
Definition linalg_inv m (A : 'M[C]_m) : option 'M[C]_m :=
  if A \in unitmx then Some (invmx A) else None.

End Numpy.

(* ------------------------------------------------------------------------- *)
(* scipy.linalg.solve_lyapunov                                                *)
(* ------------------------------------------------------------------------- *)

Section Scipy.

Variable C : numClosedFieldType.

(* scipy documents solve_lyapunov(a, q) as the solver of  a X + X a^H = q. *)
Definition continuous_lyapunov n (a q X : 'M[C]_n) : Prop :=
  a *m X + X *m a^t* = q.

(* The equation has at most one solution: no two eigenvalues of a satisfy
   s_i + conj(s_j) = 0.  Outside this case LAPACK's trsyl perturbs the
   coefficients and scipy returns whatever comes out, without raising. *)
Definition lyapunov_regular n (a : 'M[C]_n) : Prop :=
  forall X, a *m X + X *m a^t* = 0 -> X = 0.

(* The library routine is taken by its contract: a total function that
   returns the solution whenever the equation determines it. *)
Record lyapunov_solver := LyapunovSolver {
  solve_lyapunov : forall n, 'M[C]_n -> 'M[C]_n -> 'M[C]_n;
  solve_lyapunovP : forall n (a q : 'M[C]_n),
    lyapunov_regular a -> continuous_lyapunov a q (solve_lyapunov a q)
}.

(* A reference implementation of the contract, by vectorisation: the matrix
   of X |-> a X + X a^H on flattened matrices, inverted. *)
Definition lyapunov_matrix n (a : 'M[C]_n) : 'M[C]_(n * n) :=
  lin_mx (mulmx a \+ mulmxr (a^t*)).

Definition kron_solve_lyapunov n (a q : 'M[C]_n) : 'M[C]_n :=
  vec_mx (mxvec q *m invmx (lyapunov_matrix a)).

End Scipy.

(* ------------------------------------------------------------------------- *)
(* The notebook                                                               *)
(* ------------------------------------------------------------------------- *)

Section Notebook.

Variable C : numClosedFieldType.

(* def state(m=10):
       T = np.zeros((m, m), dtype=complex)
       T[0,0] = 0.6 + 1j
       idx = np.diag_indices(m-1)
       T[(idx[0]+1, idx[1])] = 1
       Q = np.eye(m)
       return T, Q
   T[0,0] = ... raises IndexError when m = 0. *)
Definition state_T m : 'M[C]_m :=
  \matrix_(i, j) (if (i == 0 :> nat) && (j == 0 :> nat) then 3 / 5 + 'i
                  else if i == j.+1 :> nat then 1 else 0).

Definition state (m : nat) : option ('M[C]_m * 'M[C]_m) :=
  match m return option ('M[C]_m * 'M[C]_m) with
  | 0 => None
  | m'.+1 => Some (state_T m'.+1, 1%:M)
  end.

Variable n : nat.

(* the matrix handed to np.linalg.inv: np.eye(n**2) - np.kron(A, A.conj()) *)
Definition direct_matrix (A : 'M[C]_n) : 'M[C]_(n * n) :=
  1%:M - kron A (map_mx conjC A).

(* def direct_inverse(A, Q):
       n = A.shape[0]
       return np.linalg.inv(np.eye(n**2) - np.kron(A,A.conj()))
                .dot(Q.reshape(Q.size, 1)).reshape(n,n) *)
Definition direct_inverse (A Q : 'M[C]_n) : option 'M[C]_n :=
  if linalg_inv (direct_matrix A) is Some Minv
  then Some (reshape_sq (Minv *m reshape_col Q))
  else None.

Variable scipy : lyapunov_solver C.

(* def bilinear1(A, Q):
       A = A.conj().T
       n = A.shape[0]
       eye = np.eye(n)
       B = np.linalg.inv(A - eye).dot(A + eye)
       res = linalg.solve_lyapunov(B.conj().T, -Q)
       return 0.5*(B - eye).conj().T.dot(res).dot(B - eye) *)
Definition bilinear1 (A0 Q : 'M[C]_n) : option 'M[C]_n :=
  let A := A0^t* in
  let eye := 1%:M in
  if linalg_inv (A - eye) is Some AmI_inv then
    let B := AmI_inv *m (A + eye) in
    let res := solve_lyapunov scipy (B^t*) (- Q) in
    Some (2^-1 *: ((B - eye)^t* *m res *m (B - eye)))
  else None.

(* def bilinear2(A, Q):
       A = A.conj().T
       n = A.shape[0]
       eye = np.eye(n)
       AI_inv = np.linalg.inv(A + eye)
       B = (A - eye).dot(AI_inv)
       C = 2*np.linalg.inv(A.conj().T + eye).dot(Q).dot(AI_inv)
       return linalg.solve_lyapunov(B.conj().T, -C) *)
Definition bilinear2 (A0 Q : 'M[C]_n) : option 'M[C]_n :=
  let A := A0^t* in
  let eye := 1%:M in
  if linalg_inv (A + eye) is Some AI_inv then
    let B := (A - eye) *m AI_inv in
    if linalg_inv (A^t* + eye) is Some AHI_inv then
      let Cm := 2 *: (AHI_inv *m Q *m AI_inv) in
      Some (solve_lyapunov scipy (B^t*) (- Cm))
    else None
  else None.

End Notebook.

(* ========================================================================= *)
(* Part II.  The vocabulary of the specification                              *)
(* ========================================================================= *)

Section Vocabulary.

Variable C : numClosedFieldType.
Variable n : nat.
Implicit Types T Q S X : 'M[C]_n.

(* Sigma = T Sigma T^H + Q *)
Definition discrete_lyapunov T Q S : Prop := S = T *m S *m T^t* + Q.

(* the discrete equation has at most one solution *)
Definition well_posed T : Prop := forall X, X = T *m X *m T^t* -> X = 0.

(* spectral radius strictly less than 1 *)
Definition stable T : Prop := forall a, eigenvalue T a -> `|a| < 1.

(* an eigenvalue pair with lambda_i * conj(lambda_j) = 1 *)
Definition resonant T : Prop :=
  exists a b, [/\ eigenvalue T a, eigenvalue T b & a * b^* = 1].

Definition hermitian Q : Prop := Q^t* = Q.


(* Section 4.2 of the specification, in its own words: q = vectorize(Q) by
   column-major stacking, Sigma = reshape(invert(M) q, m, m). *)
Definition stack_columns Q : seq C :=
  flatten [seq [seq Q i j | i <- enum 'I_n] | j <- enum 'I_n].

Definition entries (v : 'cV[C]_(n * n)) : seq C :=
  [seq v p 0 | p <- enum 'I_(n * n)].

Definition vectorize Q : 'cV[C]_(n * n) := \col_p nth 0 (stack_columns Q) p.

(* the vector is cut into n consecutive columns of length n *)
Definition unvectorize (v : 'cV[C]_(n * n)) : 'M[C]_n :=
  \matrix_(i, j) nth 0 (nth [::] (reshape (nseq n n) (entries v)) j) i.

Definition direct_solve_spec T Q : option 'M[C]_n :=
  omap (fun Minv => unvectorize (Minv *m vectorize Q))
       (linalg_inv (1%:M - kron T (map_mx conjC T))).

(* the same contract with row-major stacking: the rows of Q one after the
   other, and the vector cut into n consecutive rows *)
Definition stack_rows Q : seq C :=
  flatten [seq [seq Q i j | j <- enum 'I_n] | i <- enum 'I_n].

Definition vectorize_rows Q : 'cV[C]_(n * n) := \col_p nth 0 (stack_rows Q) p.

Definition unvectorize_rows (v : 'cV[C]_(n * n)) : 'M[C]_n :=
  \matrix_(i, j) nth 0 (nth [::] (reshape (nseq n n) (entries v)) i) j.

Definition direct_solve_rowmajor T Q : option 'M[C]_n :=
  omap (fun Minv => unvectorize_rows (Minv *m vectorize_rows Q))
       (linalg_inv (1%:M - kron T (map_mx conjC T))).

(* Section 4.3, variant 1: A = T^H, B = (A - I)^-1 (A + I), X the solution of
   B^H X + X B = -Q, Sigma = 0.5 (B - I)^H X (B - I). *)
Definition variant1_spec T Q S : Prop :=
  let A := T^t* in
  let B := invmx (A - 1%:M) *m (A + 1%:M) in
  A - 1%:M \in unitmx /\
  exists X, [/\ B^t* *m X + X *m B = - Q,
                forall X', B^t* *m X' + X' *m B = - Q -> X' = X
              & S = 2^-1 *: ((B - 1%:M)^t* *m X *m (B - 1%:M))].

(* Section 4.3, variant 2: A = T^H, AI_inv = (A + I)^-1, B = (A - I) AI_inv,
   C = 2 (A^H + I)^-1 Q AI_inv, Sigma the solution of B^H Sigma + Sigma B = -C. *)
Definition variant2_spec T Q S : Prop :=
  let A := T^t* in
  let AI_inv := invmx (A + 1%:M) in
  let B := (A - 1%:M) *m AI_inv in
  let C2 := 2 *: (invmx (A^t* + 1%:M) *m Q *m AI_inv) in
  [/\ A + 1%:M \in unitmx, B^t* *m S + S *m B = - C2
    & forall S', B^t* *m S' + S' *m B = - C2 -> S' = S].

End Vocabulary.

(* The scenarios of Section 8 of the specification and the inputs of the
   concrete runs of Part V. *)
Section Fixtures.

Variable C : numClosedFieldType.

(* m = 1, T = [0.5], Q = [1], Sigma = [4/3] *)
Definition T_half : 'M[C]_1 := (2^-1)%:M.
Definition Q_one : 'M[C]_1 := 1%:M.
Definition Sigma_half : 'M[C]_1 := (4 / 3)%:M.


Definition T_zero : 'M[C]_1 := 0%:M.
Definition Q_imag : 'M[C]_1 := 'i%:M.


(* what direct_inverse returns on state(2) *)
Definition Sigma_state2 : 'M[C]_2 :=
  \matrix_(i, j)
    (if i == 0 :> nat
     then (if j == 0 :> nat then - (25 / 9) else - (25 / 9) * (3 / 5 + 'i))
     else (if j == 0 :> nat then - (25 / 9) * (3 / 5 - 'i) else - (16 / 9))).

End Fixtures.

(* ========================================================================= *)
(* Part II (continued).  The rest of the notebook: direct_solver and the     *)
(* example cells                                                             *)
(* ========================================================================= *)

Section NotebookRest.

Variable C : numClosedFieldType.

(* scipy.linalg.solve_discrete_lyapunov(a, q), documented as the solver of
   a X a^H - X + q = 0.  It is taken by that contract: when the equation
   determines X it returns X; otherwise it may raise (None) or not. *)
Record discrete_solver := DiscreteSolver {
  solve_discrete_lyapunov : forall n, 'M[C]_n -> 'M[C]_n -> option 'M[C]_n;
  solve_discrete_lyapunovP : forall n (a q : 'M[C]_n),
    well_posed a ->
    exists2 X, solve_discrete_lyapunov a q = Some X
             & a *m X *m a^t* - X + q = 0
}.

(* def direct_solver(A, Q):
       return linalg.solve_discrete_lyapunov(A, Q) *)
Definition direct_solver (scipy_d : discrete_solver) n (A Q : 'M[C]_n) :
    option 'M[C]_n :=
  solve_discrete_lyapunov scipy_d A Q.

(* numpy.testing.assert_allclose(actual, desired), with its defaults
   rtol = 1e-7 and atol = 0: passes when
   |actual - desired| <= rtol * |desired| at every entry *)
Definition assert_allclose n (actual desired : 'M[C]_n) : bool :=
  [forall i, forall j,
     `|actual i j - desired i j| <= 10 ^- 7 * `|desired i j|].

(* how a run of the example cells ends *)
Inductive outcome := Passed | IndexError | LinAlgError | AssertionError.

(* The two example cells, one after the other, with the dimension (3 in the
   notebook) as a parameter:
       T, Q = state(3)
       sol1 = direct_inverse(T, Q)
       sol2 = direct_solver(T, Q)
       assert_allclose(sol1,sol2)
       T, Q = state(3)
       sol3 = bilinear1(T, Q)
       sol4 = bilinear2(T, Q)
       assert_allclose(sol1,sol3)
       assert_allclose(sol3,sol4) *)
Definition notebook_examples (scipy_d : discrete_solver)
    (scipy : lyapunov_solver C) (m : nat) : outcome :=
  if state C m is Some (T, Q) then
    if direct_inverse T Q is Some sol1 then
      if direct_solver scipy_d T Q is Some sol2 then
        if assert_allclose sol1 sol2 then
          if bilinear1 scipy T Q is Some sol3 then
            if bilinear2 scipy T Q is Some sol4 then
              if assert_allclose sol1 sol3 then
                if assert_allclose sol3 sol4 then Passed
                else AssertionError
              else AssertionError
            else LinAlgError
          else LinAlgError
        else AssertionError
      else LinAlgError
    else LinAlgError
  else IndexError.

Variable n : nat.



End NotebookRest.

(* ========================================================================= *)
(* Part III.  Theory                                                          *)
(* ========================================================================= *)

Section FlatIndexTheory.

Variable n : nat.

Lemma row_flat_index (i j : 'I_n) : row_index (flat_index i j) = i.
Proof.
apply: val_inj => /=; have n_gt0 : (0 < n)%N by case: (n) i => [[]|].
by rewrite divnMDl // divn_small ?addn0.
Qed.

Lemma col_flat_index (i j : 'I_n) : col_index (flat_index i j) = j.
Proof. by apply: val_inj => /=; rewrite modnMDl modn_small. Qed.

Lemma flat_row_col (p : 'I_(n * n)) : flat_index (row_index p) (col_index p) = p.
Proof. by apply: val_inj => /=; rewrite -divn_eq. Qed.

Lemma sum_flat_index (R : nmodType) (F : 'I_(n * n) -> R) :
  \sum_p F p = \sum_i \sum_j F (flat_index i j).
Proof.
rewrite pair_big /=.
rewrite (reindex (fun ij : 'I_n * 'I_n => flat_index ij.1 ij.2)) //=.
exists (fun p => (row_index p, col_index p)) => [[i j] _ | p _] /=.
  by rewrite row_flat_index col_flat_index.
exact: flat_row_col.
Qed.

End FlatIndexTheory.

Section KronTheory.

Variable C : numClosedFieldType.
Variable n : nat.
Implicit Types A B X : 'M[C]_n.

Lemma reshape_colK : cancel (@reshape_col C n) (@reshape_sq C n).
Proof.
by move=> X; apply/matrixP=> i j; rewrite !mxE row_flat_index col_flat_index.
Qed.

Lemma reshape_sqK : cancel (@reshape_sq C n) (@reshape_col C n).
Proof. by move=> v; apply/colP=> p; rewrite !mxE flat_row_col. Qed.

Lemma kron_reshape_col A B X :
  kron A B *m reshape_col X = reshape_col (A *m X *m B^T).
Proof.
apply/colP=> p; rewrite !mxE sum_flat_index.
under [RHS]eq_bigr => l _ do rewrite !mxE big_distrl /=.
rewrite exchange_big /=; apply: eq_bigr => k _; apply: eq_bigr => l _.
by rewrite !mxE !row_flat_index !col_flat_index mulrAC.
Qed.

End KronTheory.

Section DirectTheory.

Variable C : numClosedFieldType.
Variable n : nat.
Implicit Types A Q X S : 'M[C]_n.

Lemma reshape_colB X Y : reshape_col (X - Y) = reshape_col X - reshape_col Y.
Proof. by apply/colP=> p; rewrite !mxE. Qed.

Lemma reshape_col_inj : injective (@reshape_col C n).
Proof. exact: can_inj (@reshape_colK C n). Qed.

Lemma direct_matrix_reshape A X :
  direct_matrix A *m reshape_col X = reshape_col (X - A *m X *m A^t*).
Proof.
by rewrite /direct_matrix mulmxBl mul1mx kron_reshape_col reshape_colB map_trmx.
Qed.

Lemma direct_matrix_kernel A X :
  direct_matrix A \in unitmx -> X = A *m X *m A^t* -> X = 0.
Proof.
move=> unitM eqX; apply: reshape_col_inj; apply: (can_inj (mulKmx unitM)).
by rewrite !direct_matrix_reshape -eqX subrr mulmx0 mul0mx subr0.
Qed.

(* a singular matrix I - kron(A, conj(A)) has a kernel vector, which is the
   flattening of a nonzero solution of X = A X A^H *)
Lemma direct_matrix_singularP A :
  reflect (exists2 X, X != 0 & X = A *m X *m A^t*)
          (direct_matrix A \notin unitmx).
Proof.
apply: (iffP idP) => [|[X X_neq0 eqX]]; last first.
  by apply: contra X_neq0 => /direct_matrix_kernel/(_ eqX)->.
rewrite -unitmx_tr -row_free_unit -kermx_eq0.
case/rowV0Pn=> u /sub_kermxP uM0; rewrite -trmx_eq0 => u_neq0.
have eq_u : u^T = reshape_col (reshape_sq u^T) by rewrite reshape_sqK.
exists (reshape_sq u^T).
  apply: contraNneq u_neq0 => X0; rewrite eq_u X0.
  by apply/eqP/colP=> p; rewrite !mxE.
apply/subr0_eq/reshape_col_inj.
rewrite -[LHS]direct_matrix_reshape -eq_u -[direct_matrix A]trmxK -trmx_mul uM0.
by apply/colP=> p; rewrite !mxE.
Qed.

Lemma direct_matrix_unitP A :
  reflect (well_posed A) (direct_matrix A \in unitmx).
Proof.
apply: (iffP idP) => [unitM X | wpA]; first exact: direct_matrix_kernel.
apply: contraT => /direct_matrix_singularP[X X_neq0 /wpA X0].
by rewrite X0 eqxx in X_neq0.
Qed.

Lemma direct_inverseE A Q :
  direct_inverse A Q =
  if direct_matrix A \in unitmx
  then Some (reshape_sq (invmx (direct_matrix A) *m reshape_col Q)) else None.
Proof. by rewrite /direct_inverse /linalg_inv; case: ifP. Qed.

Lemma direct_inverse_sound A Q S :
  direct_inverse A Q = Some S -> discrete_lyapunov A Q S.
Proof.
rewrite direct_inverseE; case: ifP => // unitM [<-].
set S0 := reshape_sq _; rewrite /discrete_lyapunov.
apply/eqP; rewrite addrC -subr_eq; apply/eqP/reshape_col_inj.
by rewrite -direct_matrix_reshape reshape_sqK mulKVmx.
Qed.

Lemma discrete_lyapunov_sub A Q S :
  A *m S *m A^t* - S = - Q -> discrete_lyapunov A Q S.
Proof.
by move=> eqS; rewrite /discrete_lyapunov -[Q]opprK -eqS opprB addrC subrK.
Qed.



Lemma discrete_lyapunov_uniq A Q S1 S2 :
  well_posed A -> discrete_lyapunov A Q S1 -> discrete_lyapunov A Q S2 ->
  S1 = S2.
Proof.
move=> wpA eq1 eq2; apply/subr0_eq/wpA.
by rewrite mulmxBr mulmxBl {1}eq1 {1}eq2 opprD addrACA subrr addr0.
Qed.

End DirectTheory.

Section Spectrum.

Variable C : numClosedFieldType.

Lemma eigenvalue_unitmx n (T : 'M[C]_n) a :
  eigenvalue T a = (T - a%:M \notin unitmx).
Proof. by rewrite /eigenvalue /eigenspace kermx_eq0 row_free_unit. Qed.

Lemma eigenvalue_tr n (T : 'M[C]_n) a : eigenvalue T^T a = eigenvalue T a.
Proof. by rewrite !eigenvalue_unitmx -unitmx_tr linearB /= trmxK tr_scalar_mx. Qed.

Lemma eigenvalue_ctr n (T : 'M[C]_n) a : eigenvalue (T^t*) a = eigenvalue T a^*.
Proof. by rewrite -{1}[a]conjCK eigenvalue_map eigenvalue_tr. Qed.

Lemma eigen_extract n' (T : 'M[C]_n'.+1) k (X : 'M[C]_(n'.+1, k)) (rs : seq C) :
    X != 0 -> horner_mx T (\prod_(r <- rs) ('X - r%:P)) *m X = 0 ->
  exists a q, [/\ a \in rs, horner_mx T q *m X != 0
    & T *m (horner_mx T q *m X) = a *: (horner_mx T q *m X)].
Proof.
move=> X_neq0; elim: rs => [|r rs IHrs].
  by rewrite big_nil rmorph1 mul1mx => X0; rewrite X0 eqxx in X_neq0.
rewrite big_cons rmorphM /= rmorphB /= horner_mx_X horner_mx_C.
set q := \prod_(r <- rs) _ => eq0.
have [/eqP Y0 | Y_neq0] := boolP (horner_mx T q *m X == 0).
  have [a [q' [a_rs ? ?]]] := IHrs Y0.
  by exists a, q'; split=> //; rewrite inE a_rs orbT.
exists r, q; split=> //; first by rewrite mem_head.
apply/eqP; rewrite -subr_eq0 -mul_scalar_mx -mulmxBl; apply/eqP.
by rewrite -[RHS]eq0 -mulmxE mulmxA.
Qed.

Lemma eigen_restrict n (T : 'M[C]_n) k (X : 'M[C]_(n, k)) :
    X != 0 ->
  exists a (P : 'M[C]_n), [/\ eigenvalue T a, P *m T = T *m P,
    P *m X != 0 & T *m (P *m X) = a *: (P *m X)].
Proof.
case: n T X => [|n'] T X X_neq0; first by rewrite [X]flatmx0 eqxx in X_neq0.
have [rs eq_rs] := closed_field_poly_normal (char_poly T).
have:= Cayley_Hamilton T.
rewrite {1}eq_rs (monicP (char_poly_monic T)) scale1r => CH.
have [|a [q [a_rs Y_neq0 eqY]]] := @eigen_extract _ T _ X rs X_neq0.
  by rewrite CH mul0mx.
exists a, (horner_mx T q); split=> //.
  by rewrite eigenvalue_root_char eq_rs (monicP (char_poly_monic T)) scale1r
             root_prod_XsubC.
exact/comm_horner_mx/comm_mx_refl.
Qed.

End Spectrum.

Section SteinSpectrum.

Variable C : numClosedFieldType.
Variable n : nat.
Implicit Types T X : 'M[C]_n.

Lemma singular_resonant T : direct_matrix T \notin unitmx -> resonant T.
Proof.
case/direct_matrix_singularP=> X X_neq0 eqX.
have [a [P [eig_a comPT]]] := eigen_restrict T X_neq0.
set Y := P *m X => Y_neq0 eqY.
have eqY2 : a *: (Y *m T^t*) = Y.
  by rewrite scalemxAl -eqY /Y !mulmxA -comPT -!mulmxA [T *m _]mulmxA -eqX.
have a_neq0 : a != 0.
  by apply: contraNneq Y_neq0 => a0; rewrite -eqY2 a0 scale0r.
have [i [j Yij_neq0]] := matrix0Pn _ Y_neq0.
have row_neq0 : row i Y != 0.
  by apply/rV0Pn; exists j; rewrite mxE.
have eq_row : row i Y *m T^t* = a^-1 *: row i Y.
  by rewrite -row_mul -{2}eqY2 linearZ /= scalerA mulVf // scale1r.
exists a, (a^-1)^*; split=> //; last by rewrite conjCK divff.
by rewrite -eigenvalue_ctr; apply/eigenvalueP; exists (row i Y).
Qed.


Lemma stable_not_resonant T : stable T -> ~ resonant T.
Proof.
move=> stT [a [b [/stT lt_a /stT lt_b /(congr1 Num.norm)]]].
rewrite normrM norm_conjC normr1 => ab1.
have: `|a| * `|b| < 1 * 1 by rewrite ltr_pM.
by rewrite ab1 mulr1 ltxx.
Qed.

Lemma stable_well_posed T : stable T -> well_posed T.
Proof.
move=> stT; apply/direct_matrix_unitP; apply: contraT => /singular_resonant.
by move/(stable_not_resonant stT).
Qed.

End SteinSpectrum.

Section ConjTranspose.

Variable C : numClosedFieldType.

Lemma ctrM m n p (A : 'M[C]_(m, n)) (B : 'M[C]_(n, p)) :
  (A *m B)^t* = B^t* *m A^t*.
Proof. by rewrite trmx_mul map_mxM. Qed.

Lemma ctrD m n (A B : 'M[C]_(m, n)) : (A + B)^t* = A^t* + B^t*.
Proof. by rewrite linearD /= map_mxD. Qed.

Lemma ctrN m n (A : 'M[C]_(m, n)) : (- A)^t* = - A^t*.
Proof. by rewrite linearN /= map_mxN. Qed.

Lemma ctrB m n (A B : 'M[C]_(m, n)) : (A - B)^t* = A^t* - B^t*.
Proof. by rewrite ctrD ctrN. Qed.

Lemma ctrZ m n a (A : 'M[C]_(m, n)) : (a *: A)^t* = a^* *: A^t*.
Proof. by rewrite linearZ /= map_mxZ. Qed.

Lemma ctr1 n : (1%:M : 'M[C]_n)^t* = 1%:M.
Proof. by rewrite trmx1 map_mx1. Qed.

Lemma ctr0 m n : (0 : 'M[C]_(m, n))^t* = 0.
Proof. by rewrite trmx0 map_mx0. Qed.

Lemma ctrE m n (A : 'M[C]_(m, n)) i j : (A^t*) i j = (A j i)^*.
Proof. by rewrite !mxE. Qed.

Lemma ctr_unitmx n (A : 'M[C]_n) : (A^t* \in unitmx) = (A \in unitmx).
Proof. by rewrite map_unitmx unitmx_tr. Qed.

Lemma ctr_invmx n (A : 'M[C]_n) : invmx (A^t*) = (invmx A)^t*.
Proof. by rewrite -map_invmx trmx_inv. Qed.

End ConjTranspose.

Section Cayley.

Variable C : numClosedFieldType.
Variable n : nat.
Implicit Types A U V X S : 'M[C]_n.

(* variant 1: U is the inverse of V = A - I and B = U (A + I) *)
Lemma cayley1 A U X :
    U *m (A - 1%:M) = 1%:M ->
  let B := U *m (A + 1%:M) in
  let S := 2^-1 *: ((B - 1%:M)^t* *m X *m (B - 1%:M)) in
  A^t* *m S *m A - S = B^t* *m X + X *m B.
Proof.
move=> UV B S.
have UA : U *m A = 1%:M + U.
  by rewrite -UV mulmxBr mulmx1 subrK.
have eqB : B = 1%:M + 2 *: U.
  by rewrite /B mulmxDr mulmx1 UA -addrA scaler_nat mulr2n.
have eqS : S = 2 *: (U^t* *m X *m U).
  rewrite /S eqB addrC addKr ctrZ conjC_nat -!scalemxAl -scalemxAr !scalerA.
  by rewrite mulVf ?mul1r // pnatr_eq0.
have AU : A^t* *m U^t* = 1%:M + U^t* by rewrite -ctrM UA ctrD ctr1.
rewrite eqS eqB => {eqS S eqB B}.
rewrite -scalemxAr -scalemxAl !mulmxA AU -[_ *m U *m A]mulmxA UA.
rewrite ctrD ctr1 ctrZ conjC_nat.
rewrite !(mulmxDl, mulmxDr, mul1mx, mulmx1) -?scalemxAl -?scalemxAr.
move: (X *m U) (U^t* *m X) (U^t* *m X *m U) => M1 M2 M3.
by apply/matrixP=> i j; rewrite !mxE; ring.
Qed.

(* variant 2: W is the inverse of A + I and B = (A - I) W *)
Lemma cayley2 A W S :
    (A + 1%:M) *m W = 1%:M ->
  let B := (A - 1%:M) *m W in
  B^t* *m S + S *m B = 2 *: (W^t* *m (A^t* *m S *m A - S) *m W).
Proof.
move=> PW B.
have AW : A *m W = 1%:M - W.
  by rewrite -PW mulmxDl mul1mx addrK.
have eqB : B = 1%:M - 2 *: W.
  by rewrite /B mulmxBl mul1mx AW -addrA -opprD scaler_nat mulr2n.
have WA : W^t* *m A^t* = 1%:M - W^t* by rewrite -ctrM AW ctrB ctr1.
rewrite eqB => {eqB B}.
rewrite [in RHS]mulmxBr [in RHS]mulmxBl !mulmxA WA -[_ *m A *m W]mulmxA AW.
rewrite ctrB ctr1 ctrZ conjC_nat.
rewrite !(mulmxDl, mulmxDr, mulmxBl, mulmxBr, mul1mx, mulmx1, mulNmx, mulmxN).
rewrite -?scalemxAl -?scalemxAr.
move: (S *m W) (W^t* *m S) (W^t* *m S *m W) => M1 M2 M3.
by apply/matrixP=> i j; rewrite !mxE; ring.
Qed.

Lemma sandwich_inj U X : U \in unitmx -> U^t* *m X *m U = 0 -> X = 0.
Proof.
move=> unitU /(congr1 (mulmx ((invmx U)^t*)))/(congr1 (mulmxr (invmx U))) /=.
by rewrite mulmx0 mul0mx !mulmxA -ctrM mulmxV // ctr1 mul1mx mulmxK.
Qed.

End Cayley.

Section BilinearTheory.

Variable C : numClosedFieldType.
Variable scipy : lyapunov_solver C.
Variable n : nat.
Implicit Types T Q S X : 'M[C]_n.

Lemma two_neq0 : (2 : C) != 0.
Proof. by rewrite pnatr_eq0. Qed.

Lemma bilinear1_regular T :
    well_posed T -> T^t* - 1%:M \in unitmx ->
  lyapunov_regular ((invmx (T^t* - 1%:M) *m (T^t* + 1%:M))^t*).
Proof.
move=> wpT unitV X; rewrite trmxCK.
have UV := mulVmx unitV; rewrite -(cayley1 X UV) /= trmxCK.
set U := invmx _; set B := U *m _; set S := 2^-1 *: _ => /subr0_eq/esym/wpT.
rewrite {}/S; have ->: B - 1%:M = 2 *: U.
  rewrite -[X in _ - X]UV -mulmxBr opprB addrCA addrAC subrr add0r.
  by rewrite mulmxDr mulmx1 scaler_nat mulr2n.
move/(congr1 ( *:%R 2)); rewrite scalerA divff ?two_neq0 // scale1r scaler0.
by apply: sandwich_inj; rewrite unitmxZ ?unitmx_inv // unitfE two_neq0.
Qed.

Lemma bilinear1E T Q :
  bilinear1 scipy T Q =
  if T^t* - 1%:M \in unitmx then
    let B := invmx (T^t* - 1%:M) *m (T^t* + 1%:M) in
    Some (2^-1 *: ((B - 1%:M)^t* *m solve_lyapunov scipy (B^t*) (- Q)
                   *m (B - 1%:M)))
  else None.
Proof. by rewrite /bilinear1 /linalg_inv; case: ifP. Qed.

Lemma bilinear1_sound T Q S :
  well_posed T -> bilinear1 scipy T Q = Some S -> discrete_lyapunov T Q S.
Proof.
move=> wpT; rewrite bilinear1E; case: ifP => // unitV [<-].
have := solve_lyapunovP scipy (- Q) (bilinear1_regular wpT unitV).
rewrite /continuous_lyapunov trmxCK -(cayley1 _ (mulVmx unitV)) /= trmxCK.
exact: discrete_lyapunov_sub.
Qed.

Lemma bilinear2_regular T :
    well_posed T -> T^t* + 1%:M \in unitmx ->
  lyapunov_regular (((T^t* - 1%:M) *m invmx (T^t* + 1%:M))^t*).
Proof.
move=> wpT unitP X; rewrite trmxCK (cayley2 X (mulmxV unitP)) trmxCK.
have unitW : invmx (T^t* + 1%:M) \in unitmx by rewrite unitmx_inv.
move/(congr1 ( *:%R 2^-1)); rewrite scalerA mulVf ?two_neq0 // scale1r scaler0.
by move/(sandwich_inj unitW)/subr0_eq/esym/wpT.
Qed.

Lemma bilinear2E T Q :
  bilinear2 scipy T Q =
  if T^t* + 1%:M \in unitmx then
    let W := invmx (T^t* + 1%:M) in
    let B := (T^t* - 1%:M) *m W in
    Some (solve_lyapunov scipy (B^t*) (- (2 *: (W^t* *m Q *m W))))
  else None.
Proof.
rewrite /bilinear2 /linalg_inv; case: ifP => // unitP.
have ->: T^t*^t* + 1%:M = (T^t* + 1%:M)^t* by rewrite ctrD ctr1.
by rewrite ctr_unitmx unitP ctr_invmx.
Qed.

Lemma bilinear2_sound T Q S :
  well_posed T -> bilinear2 scipy T Q = Some S -> discrete_lyapunov T Q S.
Proof.
move=> wpT; rewrite bilinear2E; case: ifP => // unitP [<-].
set W := invmx _; set B := _ *m W; set Cm := 2 *: _; set X := solve_lyapunov _ _ _.
have := solve_lyapunovP scipy (- Cm) (bilinear2_regular wpT unitP).
rewrite /continuous_lyapunov trmxCK -/W -/B -/X (cayley2 X (mulmxV unitP)) trmxCK.
rewrite -/W /Cm -scalerN => /(congr1 ( *:%R 2^-1)).
rewrite !scalerA mulVf ?two_neq0 // !scale1r => /eqP.
rewrite -subr_eq0 opprK -mulmxDl -mulmxDr => /eqP.
have unitW : W \in unitmx by rewrite unitmx_inv.
move/(sandwich_inj unitW); rewrite /discrete_lyapunov.
by move/eqP; rewrite addrAC subr_eq0 => /eqP/esym.
Qed.

Lemma lyapunov_uniq (a q X X' : 'M[C]_n) :
    lyapunov_regular (a^t*) ->
    a^t* *m X + X *m a = q -> a^t* *m X' + X' *m a = q ->
  X' = X.
Proof.
move=> reg_a eqX eqX'; apply/subr0_eq/reg_a.
by rewrite trmxCK mulmxBr mulmxBl addrACA -opprD eqX eqX' subrr.
Qed.

Lemma bilinear1_failsE T Q : (bilinear1 scipy T Q == None) = eigenvalue T 1.
Proof.
rewrite bilinear1E eigenvalue_unitmx -{1}[1%:M]ctr1 -ctrB ctr_unitmx.
by case: ifP.
Qed.

Lemma bilinear2_failsE T Q : (bilinear2 scipy T Q == None) = eigenvalue T (- 1).
Proof.
rewrite bilinear2E eigenvalue_unitmx -{1}[1%:M]ctr1 -ctrD ctr_unitmx.
by rewrite rmorphN /= opprK; case: ifP.
Qed.

End BilinearTheory.

Section ReferenceSolver.

Variable C : numClosedFieldType.

Lemma kron_solve_lyapunovP n (a q : 'M[C]_n) :
  lyapunov_regular a -> continuous_lyapunov a q (kron_solve_lyapunov a q).
Proof.
move=> reg_a; have unitL : lyapunov_matrix a \in unitmx.
  rewrite -row_free_unit -kermx_eq0; apply/eqP/row_matrixP=> i.
  rewrite row0; apply: (can_inj vec_mxK); rewrite linear0; apply: reg_a.
  have /sub_kermxP := row_sub i (kermx (lyapunov_matrix a)).
  by move/(congr1 vec_mx); rewrite mx_rV_lin linear0.
have := mx_rV_lin (mulmx a \+ mulmxr (a^t*)) (mxvec q *m invmx (lyapunov_matrix a)).
by rewrite -/(lyapunov_matrix a) mulmxKV // mxvecK.
Qed.

Definition reference_solver : lyapunov_solver C :=
  LyapunovSolver kron_solve_lyapunovP.

End ReferenceSolver.

Section Hermitian.

Variable C : numClosedFieldType.
Variable n : nat.
Implicit Types T Q S : 'M[C]_n.

Lemma discrete_lyapunov_hermitian T Q S :
  well_posed T -> hermitian Q -> discrete_lyapunov T Q S -> hermitian S.
Proof.
move=> wpT hermQ eqS; apply: (discrete_lyapunov_uniq wpT _ eqS).
by rewrite /discrete_lyapunov {1}eqS ctrD !ctrM trmxCK hermQ mulmxA.
Qed.

Lemma direct_inverse_well_posed T Q S :
  direct_inverse T Q = Some S -> well_posed T.
Proof. by rewrite direct_inverseE; case: ifP => // /direct_matrix_unitP. Qed.

Lemma direct_inverse_complete T Q S :
  well_posed T -> discrete_lyapunov T Q S -> direct_inverse T Q = Some S.
Proof.
move=> wpT eqS; rewrite direct_inverseE (introT (direct_matrix_unitP T) wpT).
congr Some; apply: discrete_lyapunov_uniq eqS => //.
apply: direct_inverse_sound.
by rewrite direct_inverseE (introT (direct_matrix_unitP T) wpT).
Qed.

End Hermitian.

Section ScalarMatrices.

Variable C : numClosedFieldType.

Lemma conj_state00 : (3 / 5 + 'i : C)^* = 3 / 5 - 'i.
Proof. by rewrite rmorphD /= conjCi fmorph_div !rmorph_nat. Qed.

Lemma norm_state00 : (3 / 5 + 'i : C) * (3 / 5 + 'i)^* = 34 / 25.
Proof. by rewrite conj_state00; have i2 := sqrCi C; field: i2. Qed.

Lemma scalar_sandwich n (t : C) (X : 'M[C]_n) :
  t%:M *m X *m (t%:M)^t* = (t * t^*) *: X.
Proof.
by rewrite tr_scalar_mx map_scalar_mx mul_scalar_mx mul_mx_scalar scalerA mulrC.
Qed.

Lemma scalar_well_posed n (t : C) : t * t^* != 1 -> well_posed (t%:M : 'M[C]_n).
Proof.
move=> tt_neq1 X; rewrite scalar_sandwich => /eqP.
rewrite -subr_eq0 -{1}[X]scale1r -scalerBl scaler_eq0 subr_eq0 eq_sym.
by rewrite (negPf tt_neq1) /= => /eqP.
Qed.

Lemma scalar_discrete_lyapunov n (t q s : C) :
  s = t * s * t^* + q -> discrete_lyapunov (t%:M : 'M[C]_n) q%:M s%:M.
Proof.
move=> eq_s; rewrite /discrete_lyapunov scalar_sandwich scale_scalar_mx.
by rewrite -raddfD /=; congr (_%:M); rewrite {1}eq_s; ring.
Qed.

Lemma scalar_eigenvalue n (t a : C) :
  eigenvalue (t%:M : 'M[C]_n.+1) a = (a == t).
Proof.
rewrite eigenvalue_unitmx -raddfB /= unitmxE det_scalar unitfE negbK.
by rewrite expf_eq0 /= subr_eq0 eq_sym.
Qed.


End ScalarMatrices.

Section Methods.

Variable C : numClosedFieldType.
Variable scipy : lyapunov_solver C.
Variable n : nat.
Implicit Types T Q S : 'M[C]_n.

Lemma stable_eigen1 T : stable T -> ~~ eigenvalue T 1.
Proof. by move=> stT; apply/negP=> /stT; rewrite normr1 ltxx. Qed.

Lemma stable_eigenN1 T : stable T -> ~~ eigenvalue T (- 1).
Proof. by move=> stT; apply/negP=> /stT; rewrite normrN1 ltxx. Qed.

Lemma direct_inverse_total T Q :
  well_posed T -> exists2 S, direct_inverse T Q = Some S & discrete_lyapunov T Q S.
Proof.
move=> /direct_matrix_unitP unitM.
have eqS := direct_inverseE T Q; rewrite unitM in eqS.
by eexists; [exact: eqS | exact: direct_inverse_sound eqS].
Qed.

Lemma bilinear1_complete T Q S :
    well_posed T -> ~~ eigenvalue T 1 -> discrete_lyapunov T Q S ->
  bilinear1 scipy T Q = Some S.
Proof.
move=> wpT; rewrite -(bilinear1_failsE scipy T Q) => neqN eqS.
case eqS1: (bilinear1 scipy T Q) neqN => [S1|] // _; congr Some.
exact: discrete_lyapunov_uniq (bilinear1_sound wpT eqS1) eqS.
Qed.

Lemma bilinear2_complete T Q S :
    well_posed T -> ~~ eigenvalue T (- 1) -> discrete_lyapunov T Q S ->
  bilinear2 scipy T Q = Some S.
Proof.
move=> wpT; rewrite -(bilinear2_failsE scipy T Q) => neqN eqS.
case eqS2: (bilinear2 scipy T Q) neqN => [S2|] // _; congr Some.
exact: discrete_lyapunov_uniq (bilinear2_sound wpT eqS2) eqS.
Qed.


End Methods.

Section HalfScenario.

Variable C : numClosedFieldType.
Variable scipy : lyapunov_solver C.

Lemma half_stable : stable (T_half C).
Proof.
move=> a; rewrite scalar_eigenvalue => /eqP->.
by rewrite normfV normr_nat invf_lt1 ?ltr0n // ltr1n.
Qed.

Lemma half_solution : discrete_lyapunov (T_half C) (Q_one C) (Sigma_half C).
Proof.
by apply: scalar_discrete_lyapunov; rewrite fmorphV rmorph_nat; field.
Qed.

Lemma half_direct : direct_inverse (T_half C) (Q_one C) = Some (Sigma_half C).
Proof.
exact: direct_inverse_complete (stable_well_posed half_stable) half_solution.
Qed.

Lemma half_bilinear1 : bilinear1 scipy (T_half C) (Q_one C) = Some (Sigma_half C).
Proof.
apply: bilinear1_complete half_solution; first exact: stable_well_posed half_stable.
exact: stable_eigen1 half_stable.
Qed.

Lemma half_bilinear2 : bilinear2 scipy (T_half C) (Q_one C) = Some (Sigma_half C).
Proof.
apply: bilinear2_complete half_solution; first exact: stable_well_posed half_stable.
exact: stable_eigenN1 half_stable.
Qed.

End HalfScenario.

Section State2.

Variable C : numClosedFieldType.

Let T2 : 'M[C]_2 := state_T C 2.
Let one2 : 'I_2 := lift ord0 ord0.

Lemma state2_col1 (i : 'I_2) : T2 i one2 = 0.
Proof. by rewrite mxE /=; case: i => [[|[|i]]]. Qed.

Lemma state2_00 : T2 0 0 = 3 / 5 + 'i.
Proof. by rewrite mxE. Qed.

Lemma state2_10 : T2 one2 0 = 1.
Proof. by rewrite mxE. Qed.

Lemma state2_sandwich (X : 'M[C]_2) i j :
  (T2 *m X *m T2^t*) i j = T2 i 0 * X 0 0 * (T2 j 0)^*.
Proof.
rewrite mxE big_ord_recl big_ord1 !ctrE state2_col1 rmorph0 mulr0 addr0.
by rewrite mxE big_ord_recl big_ord1 state2_col1 mul0r addr0.
Qed.

Lemma state2_well_posed : well_posed T2.
Proof.
move=> X eqX; have X00 : X 0 0 = 0.
  have /eqP := congr1 (fun M : 'M[C]_2 => M 0 0) eqX.
  rewrite state2_sandwich state2_00 mulrAC norm_state00.
  rewrite -subr_eq0 -{1}[X 0 0]mul1r -mulrBl mulf_eq0 => /orP[|/eqP//].
  have ->: 1 - 34 / 25 = - (9 / 25) :> C by field.
  by rewrite oppr_eq0 mulf_eq0 invr_eq0 !pnatr_eq0.
by apply/matrixP=> i j; rewrite eqX state2_sandwich X00 mulr0 mul0r mxE.
Qed.

Lemma state2_not_symmetric (S : 'M[C]_2) :
  discrete_lyapunov T2 1%:M S -> S^T != S.
Proof.
move=> eqS; have eqSij i j := congr1 (fun M : 'M[C]_2 => M i j) eqS.
have S00 : S 0 0 = 34 / 25 * S 0 0 + 1.
  by rewrite {1}eqSij mxE state2_sandwich state2_00 mulrAC norm_state00 !mxE.
have S01 : S 0 one2 = (3 / 5 + 'i) * S 0 0.
  rewrite {1}eqSij mxE state2_sandwich state2_00 state2_10 !mxE /=.
  by rewrite rmorph1 mulr1 addr0.
have S10 : S one2 0 = (3 / 5 - 'i) * S 0 0.
  rewrite {1}eqSij mxE state2_sandwich state2_00 state2_10 !mxE /=.
  by rewrite mul1r addr0 conj_state00 mulrC.
apply/eqP=> /matrixP/(_ 0 one2); rewrite mxE S01 S10 => /eqP.
rewrite -subr_eq0 -mulrBl mulf_eq0 => /orP[|/eqP S0]; last first.
  by move/eqP: S00; rewrite S0 mulr0 add0r eq_sym oner_eq0.
have ->: 3 / 5 - 'i - (3 / 5 + 'i) = - (2 * 'i) :> C by field.
by rewrite oppr_eq0 mulf_eq0 pnatr_eq0 /= (negPf (neq0Ci C)).
Qed.

Lemma state2_solution : discrete_lyapunov T2 1%:M (Sigma_state2 C).
Proof.
have i2 := sqrCi C.
apply/matrixP=> i j; rewrite [RHS]mxE state2_sandwich !mxE -val_eqE /=.
case: i => [[|[|i]] //= lt_i]; case: j => [[|[|j]] //= lt_j];
  rewrite ?rmorph1 ?conj_state00; field: i2.
Qed.

End State2.

Section Stacking.

Variable C : numClosedFieldType.
Variable n : nat.
Implicit Types Q T : 'M[C]_n.
Implicit Types v : 'cV[C]_(n * n).

Lemma nth_flatten_uniform (x0 : C) k (ss : seq (seq C)) i j :
    all (fun s => size s == k) ss -> (j < k)%N ->
  nth x0 (flatten ss) (i * k + j) = nth x0 (nth [::] ss i) j.
Proof.
move=> + lt_jk; elim: ss i => [|s ss IHss] [|i] //=.
- by rewrite !nth_nil.
- by case/andP=> /eqP sz_s _; rewrite nth_cat sz_s lt_jk.
case/andP=> /eqP sz_s /IHss <-.
by rewrite nth_cat sz_s mulSn -addnA ltnNge leq_addr /= addKn.
Qed.

Lemma nth_entries v (p : 'I_(n * n)) : nth 0 (entries v) p = v p 0.
Proof.
by rewrite (nth_map p) ?size_enum_ord // nth_ord_enum.
Qed.

Lemma nth_reshape_entries v (i j : 'I_n) :
  nth 0 (nth [::] (reshape (nseq n n) (entries v)) i) j = v (flat_index i j) 0.
Proof.
have sz_v : size (entries v) = sumn (nseq n n).
  by rewrite size_map size_enum_ord sumn_nseq.
rewrite -(nth_entries v (flat_index i j)) -(@nth_flatten_uniform 0 n) //; last first.
  by rewrite reshapeKr // sz_v.
apply/allP=> s /(nthP [::])[k lt_k <-].
rewrite -(nth_map [::] 0%N size) // -/(shape _) reshapeKl ?sz_v //.
rewrite nth_nseq; move: lt_k.
by rewrite -(size_map size) -/(shape _) reshapeKl ?sz_v // size_nseq => ->.
Qed.

Lemma nth_stack_rows Q (i j : 'I_n) : nth 0 (stack_rows Q) (i * n + j) = Q i j.
Proof.
rewrite nth_flatten_uniform //.
  by apply/allP=> s /mapP[k _ ->]; rewrite size_map size_enum_ord.
rewrite (nth_map i) ?size_enum_ord // (nth_map j) ?size_enum_ord //.
by rewrite !nth_ord_enum.
Qed.

Lemma nth_stack_columns Q (i j : 'I_n) :
  nth 0 (stack_columns Q) (j * n + i) = Q i j.
Proof.
rewrite nth_flatten_uniform //.
  by apply/allP=> s /mapP[k _ ->]; rewrite size_map size_enum_ord.
rewrite (nth_map j) ?size_enum_ord // (nth_map i) ?size_enum_ord //.
by rewrite !nth_ord_enum.
Qed.

Lemma vectorize_rowsE Q : vectorize_rows Q = reshape_col Q.
Proof.
apply/colP=> p; rewrite !mxE -nth_stack_rows /=; congr (nth _ _ _).
exact: divn_eq.
Qed.

Lemma unvectorize_rowsE v : unvectorize_rows v = reshape_sq v.
Proof. by apply/matrixP=> i j; rewrite !mxE nth_reshape_entries. Qed.

Lemma vectorizeE Q : vectorize Q = reshape_col Q^T.
Proof.
apply/colP=> p; rewrite !mxE -nth_stack_columns /=; congr (nth _ _ _).
exact: divn_eq.
Qed.

Lemma unvectorizeE v : unvectorize v = (reshape_sq v)^T.
Proof. by apply/matrixP=> i j; rewrite !mxE nth_reshape_entries. Qed.

Lemma direct_solve_specE T Q :
  direct_solve_spec T Q = omap trmx (direct_inverse T Q^T).
Proof.
rewrite /direct_solve_spec /direct_inverse -/(direct_matrix T).
by case: (linalg_inv _) => //= Minv; rewrite unvectorizeE vectorizeE.
Qed.

End Stacking.

(* ========================================================================= *)
(* Part IV.  The properties of Section 8 of the specification                 *)
(* ========================================================================= *)

Section Claims.

Variable C : numClosedFieldType.
Variable scipy : lyapunov_solver C.
Variable n : nat.
Implicit Types T Q S X : 'M[C]_n.



(** C3: on the one-dimensional input T = [0.5], Q = [1] each of
    direct_inverse, bilinear1 and bilinear2 returns Sigma = [4/3]. *)
Theorem scenario_half (s : lyapunov_solver C) :
  [/\ direct_inverse (T_half C) (Q_one C) = Some (Sigma_half C),
      bilinear1 s (T_half C) (Q_one C) = Some (Sigma_half C)
    & bilinear2 s (T_half C) (Q_one C) = Some (Sigma_half C)].
Proof.
by split; [exact: half_direct | exact: half_bilinear1 | exact: half_bilinear2].
Qed.

(** C4 (amended): direct_inverse builds M = I - kron(T, conj(T)), stacks the
    rows of Q one after the other into q (row-major order), and cuts
    invert(M) q into consecutive rows to form Sigma; it fails exactly when
    the inversion does. *)
Theorem direct_inverse_rowmajor T Q :
  direct_inverse T Q = direct_solve_rowmajor T Q.
Proof.
rewrite /direct_solve_rowmajor /direct_inverse -/(direct_matrix T).
by case: (linalg_inv _) => //= Minv; rewrite unvectorize_rowsE vectorize_rowsE.
Qed.



(** C7: when the discrete equation for T has at most one solution, bilinear1
    returns Sigma exactly when Sigma is the outcome of the pipeline of
    variant 1 (A = T^H, B = (A - I)^-1 (A + I), X the solution of
    B^H X + X B = -Q, Sigma = 0.5 (B - I)^H X (B - I)), and bilinear2 returns
    Sigma exactly when Sigma is the solution of B^H Sigma + Sigma B = -C for
    B = (A - I)(A + I)^-1 and C = 2 (A^H + I)^-1 Q (A + I)^-1, with no
    scaling afterwards. *)
Theorem bilinear_pipeline T Q S :
    well_posed T ->
  (bilinear1 scipy T Q = Some S <-> variant1_spec T Q S)
  /\ (bilinear2 scipy T Q = Some S <-> variant2_spec T Q S).
Proof.
move=> wpT; rewrite bilinear1E bilinear2E /variant1_spec /variant2_spec.
have ->: invmx (T^t*^t* + 1%:M) = (invmx (T^t* + 1%:M))^t*.
  by rewrite -ctr_invmx ctrD ctr1.
split.
  case: ifP => [unitV | _]; last by split=> [|[]].
  have reg1 := bilinear1_regular wpT unitV.
  have := solve_lyapunovP scipy (- Q) reg1.
  set B1 := invmx _ *m _ in reg1 *; set X1 := solve_lyapunov _ _ _ => /=.
  rewrite /continuous_lyapunov trmxCK => solX1.
  split=> [[<-] | [_ [X [solX _ ->]]]].
    split=> //; exists X1; split=> // X' solX'.
    exact: lyapunov_uniq reg1 solX1 solX'.
  congr (Some (_ *: (_ *m _ *m _))).
  exact: lyapunov_uniq reg1 solX solX1.
case: ifP => [unitP | _]; last by split=> [|[]].
have reg2 := bilinear2_regular wpT unitP.
have := solve_lyapunovP scipy (- (2 *: ((invmx (T^t* + 1%:M))^t* *m Q
                                         *m invmx (T^t* + 1%:M)))) reg2.
set B2 := _ *m invmx _ in reg2 *; set S2 := solve_lyapunov _ _ _ => /=.
rewrite /continuous_lyapunov trmxCK => solS2.
split=> [[<-] | [_ solS _]].
  by split=> // S' solS'; exact: lyapunov_uniq reg2 solS2 solS'.
by congr Some; exact: lyapunov_uniq reg2 solS solS2.
Qed.



(** C10 (amended): no method inspects Q before solving: whether
    direct_inverse, bilinear1 or bilinear2 fails is decided by T alone, the
    same for every Q, Hermitian or not, and the matrix direct_inverse returns
    solves the equation for the Q it was given. *)
Theorem failure_independent_of_Q T Q Q' S :
  [/\ (direct_inverse T Q == None) = (direct_inverse T Q' == None),
      (bilinear1 scipy T Q == None) = (bilinear1 scipy T Q' == None),
      (bilinear2 scipy T Q == None) = (bilinear2 scipy T Q' == None)
    & direct_inverse T Q = Some S -> discrete_lyapunov T Q S].
Proof.
split; first by rewrite !direct_inverseE; case: ifP.
- by rewrite !bilinear1_failsE.
- by rewrite !bilinear2_failsE.
exact: direct_inverse_sound.
Qed.

End Claims.

(* ========================================================================= *)
(* Part V.  Concrete runs over the algebraic numbers                          *)
(* ========================================================================= *)

(* the continuous solver used in the runs *)
Definition scipy_ref : lyapunov_solver algC := reference_solver algC.




(* C7 at T = [0.5], Q = [1] *)
Lemma bilinear_pipeline_witness :
  [/\ well_posed (T_half algC),
      bilinear1 scipy_ref (T_half algC) (Q_one algC) = Some (Sigma_half algC)
    & bilinear2 scipy_ref (T_half algC) (Q_one algC) = Some (Sigma_half algC)]
  /\ (variant1_spec (T_half algC) (Q_one algC) (Sigma_half algC)
      /\ variant2_spec (T_half algC) (Q_one algC) (Sigma_half algC)).
Proof.
have wpT := stable_well_posed (@half_stable algC).
split; first by split=> //; [exact: half_bilinear1 | exact: half_bilinear2].
have [[spec1 _] [spec2 _]] :=
  bilinear_pipeline scipy_ref (Q_one algC) (Sigma_half algC) wpT.
by split; [exact: spec1 (half_bilinear1 _) | exact: spec2 (half_bilinear2 _)].
Defined.










(* C4 as stated fails on state(2): column-major stacking returns the
   transpose of what direct_inverse returns *)
Lemma colmajor_spec_differs :
  exists T Q,
    [/\ state algC 2 = Some (T, Q),
        direct_inverse T Q = Some (Sigma_state2 algC),
        direct_solve_spec T Q = Some (Sigma_state2 algC)^T
      & direct_inverse T Q <> direct_solve_spec T Q].
Proof.
have eqS : direct_inverse (state_T algC 2) 1%:M = Some (Sigma_state2 algC).
  exact: direct_inverse_complete (@state2_well_posed algC) (state2_solution algC).
exists (state_T algC 2), 1%:M; split=> //.
  by rewrite direct_solve_specE trmx1 eqS.
rewrite direct_solve_specE trmx1 eqS /= => -[eqT].
by have /eqP[] := state2_not_symmetric (state2_solution algC).
Qed.






(* C10 as stated fails on T = [[0]], Q = [[1j]]: Q is not Hermitian and every
   method returns a matrix *)
Lemma imag_not_hermitian : ~ hermitian (Q_imag algC).
Proof.
move/matrixP/(_ 0 0); rewrite ctrE !mxE /= !mulr1n conjCi => /eqP.
rewrite eq_sym -addr_eq0 -mulr2n -mulr_natl mulf_eq0 pnatr_eq0 /=.
by rewrite (negPf (neq0Ci algC)).
Qed.

Lemma zero_well_posed : well_posed (T_zero algC).
Proof. by apply: scalar_well_posed; rewrite mul0r eq_sym oner_eq0. Qed.

Lemma zero_solution : discrete_lyapunov (T_zero algC) (Q_imag algC) (Q_imag algC).
Proof. by apply: scalar_discrete_lyapunov; rewrite !mul0r add0r. Qed.

Lemma nonhermitian_accepted :
  [/\ ~ hermitian (Q_imag algC),
      direct_inverse (T_zero algC) (Q_imag algC) = Some (Q_imag algC),
      bilinear1 scipy_ref (T_zero algC) (Q_imag algC) = Some (Q_imag algC)
    & bilinear2 scipy_ref (T_zero algC) (Q_imag algC) = Some (Q_imag algC)].
Proof.
split; first exact: imag_not_hermitian.
- exact: direct_inverse_complete zero_well_posed zero_solution.
- apply: bilinear1_complete zero_well_posed _ zero_solution.
  by rewrite scalar_eigenvalue oner_eq0.
- apply: bilinear2_complete zero_well_posed _ zero_solution.
  by rewrite scalar_eigenvalue oppr_eq0 oner_eq0.
Qed.


(* ========================================================================= *)
(* Part VI.  Further properties of the notebook's functions                   *)
(* ========================================================================= *)

Section StateSpectrum.

Variable C : numClosedFieldType.

Lemma norm_state00_neq1_gen : (34 / 25 : C) != 1.
Proof.
apply/eqP=> /(congr1 (fun x : C => x * 25 - 25)).
rewrite mulfVK ?pnatr_eq0 // mul1r subrr => /eqP.
by rewrite -natrB // pnatr_eq0.
Qed.

Lemma state00_neq0 : (3 / 5 + 'i : C) != 0.
Proof.
apply/eqP=> t0; have := norm_state00 C; rewrite t0 mul0r => /esym/eqP.
by rewrite mulf_eq0 invr_eq0 !pnatr_eq0.
Qed.

Lemma state_trig m : is_trig_mx (state_T C m).
Proof.
apply/is_trig_mxP=> i j lt_ij; rewrite mxE.
have -> : (j == 0 :> nat) = false by case: (j : nat) lt_ij.
by rewrite andbF (ltn_eqF (ltnW lt_ij : (i < j.+1)%N)).
Qed.

Lemma state_diag m (i : 'I_m) :
  state_T C m i i = if i == 0 :> nat then 3 / 5 + 'i else 0.
Proof. by rewrite mxE andbb (ltn_eqF (ltnSn i)). Qed.

Lemma state_eigenvalueP m (a : C) :
  eigenvalue (state_T C m) a ->
  a = 3 / 5 + 'i \/ a = 0.
Proof.
rewrite eigenvalue_root_char (char_poly_trig (state_trig m)).
rewrite -(big_map (fun i : 'I_m => state_T C m i i) predT
            (fun b => 'X - b%:P)) root_prod_XsubC.
case/mapP=> i _ ->; rewrite state_diag.
by case: ifP; [left | right].
Qed.

Lemma state_eigenvalue0 m : eigenvalue (state_T C m.+1) (3 / 5 + 'i).
Proof.
rewrite eigenvalue_root_char (char_poly_trig (state_trig m.+1)).
rewrite -(big_map (fun i : 'I_m.+1 => state_T C m.+1 i i) predT
            (fun b => 'X - b%:P)) root_prod_XsubC.
by apply/mapP; exists ord0; rewrite ?mem_index_enum ?state_diag.
Qed.

Lemma state_not_resonant m : ~ resonant (state_T C m).
Proof.
case=> a [b [/state_eigenvalueP eig_a /state_eigenvalueP eig_b]].
case: eig_a => ->; last by rewrite mul0r => /esym/eqP; rewrite oner_eq0.
case: eig_b => ->; last by rewrite rmorph0 mulr0 => /esym/eqP; rewrite oner_eq0.
by rewrite norm_state00 => /eqP; rewrite (negPf norm_state00_neq1_gen).
Qed.

Lemma state_well_posed m : well_posed (state_T C m).
Proof.
apply/direct_matrix_unitP; apply: contraT => /singular_resonant.
by move/state_not_resonant.
Qed.

Lemma state_eigen1 m : ~~ eigenvalue (state_T C m) 1.
Proof.
apply/negP=> /state_eigenvalueP[] eq1; last first.
  by move/eqP: eq1; rewrite oner_eq0.
have := norm_state00 C; rewrite -eq1 rmorph1 mulr1 => /esym/eqP.
by rewrite (negPf norm_state00_neq1_gen).
Qed.

Lemma state_eigenN1 m : ~~ eigenvalue (state_T C m) (- 1).
Proof.
apply/negP=> /state_eigenvalueP[] eq1; last first.
  by move/eqP: eq1; rewrite oppr_eq0 oner_eq0.
have := norm_state00 C; rewrite -eq1 rmorphN1 mulrNN mulr1 => /esym/eqP.
by rewrite (negPf norm_state00_neq1_gen).
Qed.

Lemma state_modulus : 1 < `|3 / 5 + 'i : C|.
Proof.
rewrite -(@expr_gt1 _ 2) // normCK norm_state00.
by rewrite ltr_pdivlMr ?ltr0n // mul1r ltr_nat.
Qed.

End StateSpectrum.

Section SolverProperties.

Variable C : numClosedFieldType.
Variable scipy : lyapunov_solver C.
Variable n : nat.
Implicit Types T Q S X P : 'M[C]_n.

Lemma discrete_lyapunovD (a : C) T Q1 Q2 S1 S2 :
    discrete_lyapunov T Q1 S1 -> discrete_lyapunov T Q2 S2 ->
  discrete_lyapunov T (a *: Q1 + Q2) (a *: S1 + S2).
Proof.
rewrite /discrete_lyapunov => eq1 eq2.
rewrite mulmxDr mulmxDl -scalemxAr -scalemxAl addrACA -scalerDr.
by rewrite -eq1 -eq2.
Qed.






(** X4: superposition.  The three solvers are linear in Q: when a method
    succeeds on (T, Q1) and on (T, Q2), it returns a * Sigma1 + Sigma2 on
    (T, a * Q1 + Q2) (for the bilinear variants, when X = T X T^H has only
    the zero solution). *)
Theorem solvers_linear_in_Q (a : C) T Q1 Q2 S1 S2 :
    well_posed T ->
  [/\ direct_inverse T Q1 = Some S1 -> direct_inverse T Q2 = Some S2 ->
        direct_inverse T (a *: Q1 + Q2) = Some (a *: S1 + S2),
      bilinear1 scipy T Q1 = Some S1 -> bilinear1 scipy T Q2 = Some S2 ->
        bilinear1 scipy T (a *: Q1 + Q2) = Some (a *: S1 + S2)
    & bilinear2 scipy T Q1 = Some S1 -> bilinear2 scipy T Q2 = Some S2 ->
        bilinear2 scipy T (a *: Q1 + Q2) = Some (a *: S1 + S2)].
Proof.
move=> wpT; split=> eq1 eq2.
- apply: direct_inverse_complete => //.
  apply: discrete_lyapunovD; first exact: direct_inverse_sound eq1.
  exact: direct_inverse_sound eq2.
- apply: bilinear1_complete => //.
    by rewrite -(bilinear1_failsE scipy T Q1) eq1.
  apply: discrete_lyapunovD; first exact: bilinear1_sound wpT eq1.
  exact: bilinear1_sound wpT eq2.
- apply: bilinear2_complete => //.
    by rewrite -(bilinear2_failsE scipy T Q1) eq1.
  apply: discrete_lyapunovD; first exact: bilinear2_sound wpT eq1.
  exact: bilinear2_sound wpT eq2.
Qed.


End SolverProperties.

Section ChangeOfBasis.

Variable C : numClosedFieldType.
Variable n : nat.
Implicit Types T Q S X P : 'M[C]_n.





End ChangeOfBasis.

Section Diagonal.

Variable C : numClosedFieldType.
Variable n : nat.
Implicit Types (d : 'rV[C]_n) (Q S X : 'M[C]_n).



End Diagonal.

Section Flattening.

Variable C : numClosedFieldType.
Variable n : nat.
Implicit Types A B T X : 'M[C]_n.

(** X8: the flattening behind direct_inverse.  With numpy's row-major
    reshape, np.kron(A, B) applied to the flattened X is the flattened
    A X B^T, so I - kron(T, conj(T)) applied to the flattened X is the
    flattened X - T X T^H; reshaping a matrix to a column and back, or a
    column to a matrix and back, changes nothing. *)
Theorem kron_acts_on_flattened A B T X (v : 'cV[C]_(n * n)) :
  [/\ kron A B *m reshape_col X = reshape_col (A *m X *m B^T),
      direct_matrix T *m reshape_col X = reshape_col (X - T *m X *m T^t*),
      reshape_sq (reshape_col X) = X
    & reshape_col (reshape_sq v) = v].
Proof.
split; first exact: kron_reshape_col.
- exact: direct_matrix_reshape.
- exact: reshape_colK.
- exact: reshape_sqK.
Qed.

End Flattening.

Section StateRuns.

Variable C : numClosedFieldType.
Variable scipy_d : discrete_solver C.
Variable scipy : lyapunov_solver C.

Lemma assert_allclose_refl n (S : 'M[C]_n) : assert_allclose S S.
Proof.
apply/'forall_forallP=> i j; rewrite subrr normr0 mulr_ge0 //.
by rewrite invr_ge0 exprn_ge0 ?ler0n.
Qed.

Lemma direct_solver_complete n (T Q S : 'M[C]_n) :
  well_posed T -> discrete_lyapunov T Q S -> direct_solver scipy_d T Q = Some S.
Proof.
move=> wpT solS; have [X eqX solX] := solve_discrete_lyapunovP scipy_d Q wpT.
rewrite /direct_solver eqX; congr Some.
apply: discrete_lyapunov_uniq solS => //.
by move/eqP: solX; rewrite addrAC subr_eq0 => /eqP/esym.
Qed.

Lemma state_methods m :
  exists S : 'M[C]_m,
    [/\ discrete_lyapunov (state_T C m) 1%:M S,
        direct_inverse (state_T C m) 1%:M = Some S,
        bilinear1 scipy (state_T C m) 1%:M = Some S
      & bilinear2 scipy (state_T C m) 1%:M = Some S].
Proof.
have wpT := @state_well_posed C m.
have [S eqS solS] := direct_inverse_total 1%:M wpT; exists S; split=> //.
  exact: bilinear1_complete (state_eigen1 C m) solS.
exact: bilinear2_complete (state_eigenN1 C m) solS.
Qed.

(** X9: the assertions of the notebook hold in every dimension.  On
    T, Q = state(m) with m >= 1, direct_inverse, direct_solver, bilinear1 and
    bilinear2 all return a matrix and the three assert_allclose checks of the
    example cells pass; for m = 0 the run stops in state with an IndexError. *)
Theorem notebook_examples_pass m :
  notebook_examples scipy_d scipy m = if m is 0 then IndexError else Passed.
Proof.
case: m => [|m] //; rewrite /notebook_examples /=.
have [S [solS -> -> ->]] := state_methods m.+1.
rewrite (direct_solver_complete (@state_well_posed C m.+1) solS).
by rewrite !assert_allclose_refl.
Qed.

(** X10: direct_solver returns the same matrix as direct_inverse whenever
    direct_inverse succeeds. *)
Theorem direct_solver_agrees n (T Q S : 'M[C]_n) :
  direct_inverse T Q = Some S -> direct_solver scipy_d T Q = Some S.
Proof.
move=> eqS; apply: direct_solver_complete (direct_inverse_sound eqS).
exact: direct_inverse_well_posed eqS.
Qed.

(** X11: the fixture of the notebook is never stable.  For every m >= 1,
    state(m) returns Q = I and a T whose eigenvalues are 0.6+1j and possibly
    0; 0.6+1j is an eigenvalue and its modulus is above 1. *)
Theorem state_not_stable m (T Q : 'M[C]_m) :
    state C m = Some (T, Q) ->
  [/\ Q = 1%:M, eigenvalue T (3 / 5 + 'i), 1 < `|3 / 5 + 'i : C|,
      forall a, eigenvalue T a -> a = 3 / 5 + 'i \/ a = 0
    & ~ stable T].
Proof.
case: m T Q => [|m] T Q //= [<- <-]; split=> //.
- exact: state_eigenvalue0.
- exact: state_modulus.
- exact: state_eigenvalueP.
move=> stT; have := stT _ (state_eigenvalue0 C m).
by move/lt_gtF; rewrite state_modulus.
Qed.

Lemma state_row0 m (j : 'I_m.+1) :
  state_T C m.+1 0 j = if j == 0 then 3 / 5 + 'i else 0.
Proof. by rewrite mxE /= -val_eqE /=; case: (j : nat). Qed.

Lemma state_sandwich00 m (S : 'M[C]_m.+1) :
  (state_T C m.+1 *m S *m (state_T C m.+1)^t*) 0 0 =
  (3 / 5 + 'i) * S 0 0 * (3 / 5 + 'i)^*.
Proof.
rewrite mxE (bigD1 ord0) //= big1 => [l l_neq0|].
  by rewrite ctrE state_row0 (negPf l_neq0) rmorph0 mulr0.
rewrite addr0 ctrE state_row0 eqxx; congr (_ * _).
rewrite mxE (bigD1 ord0) //= big1 => [k k_neq0|].
  by rewrite state_row0 (negPf k_neq0) mul0r.
by rewrite addr0 state_row0 eqxx.
Qed.

(** X12: what the solvers return on the notebook's fixture is not a
    covariance matrix.  For every m >= 1 the matrix Sigma that direct_inverse,
    bilinear1 and bilinear2 return on state(m) is Hermitian and has the
    negative entry Sigma[0,0] = -25/9. *)
Theorem state_solution_negative m (T Q : 'M[C]_m.+1) :
    state C m.+1 = Some (T, Q) ->
  exists S : 'M[C]_m.+1,
    [/\ direct_inverse T Q = Some S, bilinear1 scipy T Q = Some S,
        bilinear2 scipy T Q = Some S, hermitian S
      & S 0 0 = - (25 / 9) /\ S 0 0 < 0].
Proof.
case=> <- <-; have [S [solS eq1 eq2 eq3]] := state_methods m.+1; exists S.
have S00 : S 0 0 = - (25 / 9).
  have := congr1 (fun M : 'M[C]_m.+1 => M 0 0) solS.
  rewrite mxE state_sandwich00 mulrAC norm_state00 mxE eqxx /= => eqS.
  have: (1 - 34 / 25) * S 0 0 = 1.
    by rewrite mulrBl mul1r {1}eqS addrAC subrr add0r.
  have ->: 1 - 34 / 25 = - (9 / 25) :> C by field.
  move/(congr1 (fun x : C => - (25 / 9) * x)); rewrite mulr1 => <-.
  by field.
split=> //.
  apply: discrete_lyapunov_hermitian solS; first exact: (@state_well_posed C).
  exact: ctr1.
by rewrite S00 oppr_lt0 divr_gt0 ?ltr0n.
Qed.

End StateRuns.

Section CayleyHalfPlane.

Variable C : numClosedFieldType.
Variable scipy : lyapunov_solver C.
Variable n : nat.
Implicit Types T Q : 'M[C]_n.







End CayleyHalfPlane.

Section ReferenceDiscreteSolver.

Variable C : numClosedFieldType.

Lemma direct_inverse_discreteP n (a q : 'M[C]_n) :
    well_posed a ->
  exists2 X, direct_inverse a q = Some X & a *m X *m a^t* - X + q = 0.
Proof.
move=> wpa; have [X eqX solX] := direct_inverse_total q wpa; exists X => //.
by rewrite addrAC -solX subrr.
Qed.

(* a solver meeting the contract of solve_discrete_lyapunov, for the
   concrete runs *)
Definition reference_discrete_solver : discrete_solver C :=
  DiscreteSolver direct_inverse_discreteP.

End ReferenceDiscreteSolver.

(* ------------------------------------------------------------------------- *)
(* Concrete runs of Part VI over the algebraic numbers                        *)
(* ------------------------------------------------------------------------- *)

Definition scipy_d_ref : discrete_solver algC := reference_discrete_solver algC.

Lemma half_well_posed : well_posed (T_half algC).
Proof. exact: stable_well_posed (@half_stable algC). Qed.





(* X4 at T = [0.5], Q1 = Q2 = [1], a = 2 *)
Lemma solvers_linear_in_Q_witness :
  well_posed (T_half algC) /\
  [/\ direct_inverse (T_half algC) (Q_one algC) = Some (Sigma_half algC) ->
      direct_inverse (T_half algC) (Q_one algC) = Some (Sigma_half algC) ->
        direct_inverse (T_half algC) (2 *: Q_one algC + Q_one algC) =
        Some (2 *: Sigma_half algC + Sigma_half algC),
      bilinear1 scipy_ref (T_half algC) (Q_one algC) = Some (Sigma_half algC) ->
      bilinear1 scipy_ref (T_half algC) (Q_one algC) = Some (Sigma_half algC) ->
        bilinear1 scipy_ref (T_half algC) (2 *: Q_one algC + Q_one algC) =
        Some (2 *: Sigma_half algC + Sigma_half algC)
    & bilinear2 scipy_ref (T_half algC) (Q_one algC) = Some (Sigma_half algC) ->
      bilinear2 scipy_ref (T_half algC) (Q_one algC) = Some (Sigma_half algC) ->
        bilinear2 scipy_ref (T_half algC) (2 *: Q_one algC + Q_one algC) =
        Some (2 *: Sigma_half algC + Sigma_half algC)].
Proof.
split; first exact: half_well_posed.
exact: (solvers_linear_in_Q scipy_ref 2 (Q_one algC) (Q_one algC)
          (Sigma_half algC) (Sigma_half algC) half_well_posed).
Defined.



(* X10 at T = [0.5], Q = [1] *)
Lemma direct_solver_agrees_witness :
  direct_inverse (T_half algC) (Q_one algC) = Some (Sigma_half algC) /\
  direct_solver scipy_d_ref (T_half algC) (Q_one algC) = Some (Sigma_half algC).
Proof.
split; first exact: half_direct.
exact: (direct_solver_agrees scipy_d_ref (half_direct algC)).
Defined.

(* X11 at state(3), the fixture of the example cells *)
Lemma state_not_stable_witness :
  state algC 3 = Some (state_T algC 3, 1%:M) /\
  [/\ (1%:M : 'M[algC]_3) = 1%:M, eigenvalue (state_T algC 3) (3 / 5 + 'i),
      1 < `|3 / 5 + 'i : algC|,
      forall a, eigenvalue (state_T algC 3) a -> a = 3 / 5 + 'i \/ a = 0
    & ~ stable (state_T algC 3)].
Proof.
split; first by [].
exact: (@state_not_stable algC 3 (state_T algC 3) 1%:M (erefl _)).
Defined.

(* X12 at state(3) *)
Lemma state_solution_negative_witness :
  state algC 3 = Some (state_T algC 3, 1%:M) /\
  exists S : 'M[algC]_3,
    [/\ direct_inverse (state_T algC 3) 1%:M = Some S,
        bilinear1 scipy_ref (state_T algC 3) 1%:M = Some S,
        bilinear2 scipy_ref (state_T algC 3) 1%:M = Some S, hermitian S
      & S 0 0 = - (25 / 9) /\ S 0 0 < 0].
Proof.
split; first by [].
exact: (@state_solution_negative algC scipy_ref 2 (state_T algC 3) 1%:M
          (erefl _)).
Defined.

